(** * timeline.py: the Timeline container, its derived range, fences and ticks

    A shallow embedding of [src/timeline.py].  The module defines four
    plain record classes ([Age], [Period], [Event], [Country]) and the
    [Timeline] class, which keeps one name-keyed [dict] per record class,
    derives its overall time range from them and draws everything on a
    matplotlib axes.

    Modelling choices.
    - Numbers.  Every coordinate of the program is a Python number.  They
      are embedded as exact rationals ([Qc], canonical fractions, so that
      equal numbers are equal terms).  Rounding of binary floating point,
      infinities and NaN are outside the model.
    - Dicts.  A Python [dict] iterates in insertion order and an
      assignment to an existing key keeps the key's position.  Both matter
      for the fences, so a dict is an association list with in-place
      update, not an unordered finite map.
    - Exceptions.  A Python exception is a class name and a message; a
      computation that may raise returns a [result].
    - Drawing.  The matplotlib axes is a record that collects the artists
      in the order of the calls, together with the tick and limit
      settings.  [plot] runs in a state-and-exception monad over the
      object and the axes. *)

From Stdlib Require Import QArith Qcanon Qround ZArith List String Lia.
From Stdlib Require Import Sorting.Sorted Sorting.Permutation.
Import ListNotations.

Open Scope string_scope.
Open Scope list_scope.
Open Scope Qc_scope.

(** ** Numbers *)

Abbreviation num := Qc (only parsing).

(** Integer and decimal literals of the source. *)
Definition int (z : Z) : num := Q2Qc (inject_Z z).
Definition dec (q : Q) : num := Q2Qc q.

Definition num_leb (a b : num) : bool := Qle_bool a b.

(** Python's [a // b] on numbers: the floor of the quotient. *)
Definition floordiv (a b : num) : num := int (Qfloor (this a / this b)).

(** ** Exceptions and results *)

Record exn := Exception { exn_class : string; exn_msg : string }.

Inductive result (A : Type) : Type :=
| Ok (a : A)
| Raise (e : exn).
Arguments Ok {A} a.
Arguments Raise {A} e.

Definition ValueError (msg : string) : exn :=
  {| exn_class := "ValueError"; exn_msg := msg |}.

(** ** numpy *)

Module np.

(** [np.min] and [np.max] reduce with the binary minimum and maximum;
    on a zero-size array they raise [ValueError]. *)
Definition minimum (a b : num) : num := if num_leb a b then a else b.
Definition maximum (a b : num) : num := if num_leb a b then b else a.

Definition min (a : list num) : result num :=
  match a with
  | [] => Raise (ValueError
      "zero-size array to reduction operation minimum which has no identity")
  | x :: r => Ok (fold_left minimum r x)
  end.

Definition max (a : list num) : result num :=
  match a with
  | [] => Raise (ValueError
      "zero-size array to reduction operation maximum which has no identity")
  | x :: r => Ok (fold_left maximum r x)
  end.

Definition sum (a : list num) : num := fold_left Qcplus a (int 0).

(** [np.mean]; the source only calls it on non-empty arrays. *)
Definition mean (a : list num) : num :=
  sum a / int (Z.of_nat (List.length a)).

(** [np.arange(start, stop, step)] for a positive step: the values
    [start + i * step] for [0 <= i < ceil ((stop - start) / step)]. *)
Definition arange (start stop step : num) : list num :=
  map (fun i => start + int (Z.of_nat i) * step)
      (seq 0 (Z.to_nat
                (Qceiling ((this stop - this start) / this step)%Q))).

(** [np.linspace(start, stop)]: 50 evenly spaced samples, both ends
    included. *)
Definition linspace (start stop : num) : list num :=
  map (fun i => start + int (Z.of_nat i) * ((stop - start) / int 49))
      (seq 0 50).

End np.

(** ** Python dicts with insertion order *)

Section Dict.
Context {V : Type}.

Definition dict := list (string * V).

Definition dict_empty : dict := [].

(** [d[k] = v] *)
Fixpoint dict_set (d : dict) (k : string) (v : V) : dict :=
  match d with
  | [] => [(k, v)]
  | (k', v') :: r =>
      if String.eqb k' k then (k, v) :: r
      else (k', v') :: dict_set r k v
  end.

(** [d.get(k)] *)
Fixpoint dict_get (d : dict) (k : string) : option V :=
  match d with
  | [] => None
  | (k', v') :: r => if String.eqb k' k then Some v' else dict_get r k
  end.

Definition keys (d : dict) : list string := map fst d.
Definition values (d : dict) : list V := map snd d.
Definition items (d : dict) : list (string * V) := d.
End Dict.
Arguments dict V : clear implicits.

(** ** The record classes *)

Module Age.
Record t := Build
  { start : num; end_ : num; color : string; y : num;
    top_alpha : num; bottom_alpha : num; url : option string }.
Definition default_y : num := dec 0.9.
Definition default_top_alpha : num := dec 0.5.
Definition default_bottom_alpha : num := dec 0.1.
End Age.

Module Period.
Record t := Build
  { start : num; end_ : num; y : num; color : string; alpha : num;
    fontsize : num; bold : bool; h : num; url : option string }.
Definition default_alpha : num := dec 0.4.
Definition default_fontsize : num := int 10.
Definition default_bold : bool := false.
Definition default_h : num := dec 0.025.
End Period.

Module Event.
Record t := Build
  { year : num; y : num; color : string; fontsize : num;
    bold : bool; url : option string }.
Definition default_color : string := "k".
Definition default_fontsize : num := int 8.
Definition default_bold : bool := true.
End Event.

Module Country.
Record t := Build { y : num; url : option string }.
End Country.

(** ** Timeline: the collections and the derived range *)

Record Timeline := mkTimeline
  { ages : dict Age.t;
    periods : dict Period.t;
    countries : dict Country.t;
    events : dict Event.t }.

(** [Timeline.__init__] *)
Definition Timeline_init : Timeline :=
  {| ages := dict_empty; periods := dict_empty;
     countries := dict_empty; events := dict_empty |}.

Definition add_age (self : Timeline) (name : string) (start end_ : num)
    (color : string) (y top_alpha bottom_alpha : num) (url : option string)
  : Timeline :=
  {| ages := dict_set (ages self) name
               (Age.Build start end_ color y top_alpha bottom_alpha url);
     periods := periods self;
     countries := countries self;
     events := events self |}.

Definition add_period (self : Timeline) (name : string) (start end_ y : num)
    (color : string) (alpha fontsize : num) (bold : bool) (h : num)
    (url : option string) : Timeline :=
  {| ages := ages self;
     periods := dict_set (periods self) name
                  (Period.Build start end_ y color alpha fontsize bold h url);
     countries := countries self;
     events := events self |}.

Definition add_event (self : Timeline) (name : string) (year y : num)
    (color : string) (fontsize : num) (bold : bool) (url : option string)
  : Timeline :=
  {| ages := ages self;
     periods := periods self;
     countries := countries self;
     events := dict_set (events self) name
                 (Event.Build year y color fontsize bold url) |}.

Definition add_country (self : Timeline) (name : string) (y : num)
    (url : option string) : Timeline :=
  {| ages := ages self;
     periods := periods self;
     countries := dict_set (countries self) name (Country.Build y url);
     events := events self |}.

(** [Timeline._all_years]: the flattened start/end pairs of the ages, then
    of the periods, then the years of the events. *)
Definition _all_years (self : Timeline) : list num :=
  flat_map (fun age => [Age.start age; Age.end_ age]) (values (ages self))
  ++ flat_map (fun age => [Period.start age; Period.end_ age])
       (values (periods self))
  ++ map Event.year (values (events self)).

(** The properties [Timeline.start] and [Timeline.end]. *)
Definition start (self : Timeline) : result num := np.min (_all_years self).
Definition end_ (self : Timeline) : result num := np.max (_all_years self).

(** ** Fence placement

    Lines 476-489 of [plot], the block guarded by [if fences:].  Its input
    is [y_countries], the y positions of the countries in the order of
    [self.countries.values()]; its output is the array [y_fences].  *)
Definition y_fences (y_countries : list num) : result (list num) :=
  if (1 <? List.length y_countries)%nat then
    (* (y_countries[1:] + y_countries[:-1]) / 2 *)
    let y_fences :=
      map (fun p => (fst p + snd p) / int 2)
          (combine (tl y_countries) (removelast y_countries)) in
    (* np.append(y_fences, 2 * np.max(y_countries) - np.max(y_fences)) *)
    match np.max y_countries with
    | Raise e => Raise e
    | Ok top =>
        match np.max y_fences with
        | Raise e => Raise e
        | Ok m => Ok (y_fences ++ [int 2 * top - m])
        end
    end
  else
    (* 2 * y_countries *)
    Ok (map (fun y => int 2 * y) y_countries).

(** ** The drawing surface *)

Record TextProps := mkTextProps
  { text_url : option string; text_c : option string;
    text_fontsize : option num; text_weight : option string;
    text_ha : string; text_va : string }.

Inductive Artist :=
| Axvspan (xmin xmax ymin ymax : num) (color : string) (alpha lw : num)
| FillBetween (x : list num) (y1 y2 : num) (color : string)
    (alpha : option num) (lw : num)
| Text (x y : num) (s : string) (props : TextProps)
| Line2D (xdata ydata : list num) (c ls : string) (alpha zorder : num).

Record Axes := mkAxes
  { artists : list Artist;
    xticks : option (list num);
    yticks : option (list num);
    xlim : option (num * num);
    ylim : option (num * num);
    spines_visible : bool }.

Record Figure := mkFigure
  { figsize : num * num; dpi : num; fig_axes : Axes }.

(** A freshly created axes: nothing drawn, ticks and limits automatic. *)
Definition new_axes : Axes :=
  {| artists := []; xticks := None; yticks := None;
     xlim := None; ylim := None; spines_visible := true |}.

(** ** The state-and-exception monad of [plot]

    The state holds the object [self] and the axes [ax] being drawn on.
    An exception stops the computation and leaves the state as it was
    when it was raised. *)

Record World := mkWorld { obj : Timeline; ax : Axes }.

Definition M (A : Type) : Type := World -> result A * World.

Definition ret {A} (a : A) : M A := fun w => (Ok a, w).

Definition bind {A B} (m : M A) (k : A -> M B) : M B :=
  fun w =>
    match m w with
    | (Ok a, w') => k a w'
    | (Raise e, w') => (Raise e, w')
    end.

Notation "x <- m ;; k" := (bind m (fun x => k))
  (at level 61, m at next level, right associativity).
Notation "m ;; k" := (bind m (fun _ => k))
  (at level 61, right associativity).

(** Read an attribute or a property of [self]. *)
Definition gets {A} (f : Timeline -> A) : M A :=
  fun w => (Ok (f (obj w)), w).
Definition prop {A} (f : Timeline -> result A) : M A :=
  fun w => (f (obj w), w).
Definition lift {A} (r : result A) : M A := fun w => (r, w).

Definition modify_ax (f : Axes -> Axes) : M unit :=
  fun w => (Ok tt, {| obj := obj w; ax := f (ax w) |}).

Definition add_artist (a : Artist) : M unit :=
  modify_ax (fun ax =>
    {| artists := artists ax ++ [a]; xticks := xticks ax;
       yticks := yticks ax; xlim := xlim ax; ylim := ylim ax;
       spines_visible := spines_visible ax |}).

(** [for x in l: body] *)
Fixpoint for_ {A} (l : list A) (body : A -> M unit) : M unit :=
  match l with
  | [] => ret tt
  | x :: r => body x ;; for_ r body
  end.

(** [plt.subplots]: a new figure with one empty axes. *)
Definition subplots : M unit := modify_ax (fun _ => new_axes).

Definition set_xticks (t : list num) : M unit :=
  modify_ax (fun ax =>
    {| artists := artists ax; xticks := Some t; yticks := yticks ax;
       xlim := xlim ax; ylim := ylim ax;
       spines_visible := spines_visible ax |}).

Definition set_yticks (t : list num) : M unit :=
  modify_ax (fun ax =>
    {| artists := artists ax; xticks := xticks ax; yticks := Some t;
       xlim := xlim ax; ylim := ylim ax;
       spines_visible := spines_visible ax |}).

Definition set_lims (yl xl : num * num) : M unit :=
  modify_ax (fun ax =>
    {| artists := artists ax; xticks := xticks ax; yticks := yticks ax;
       xlim := Some xl; ylim := Some yl;
       spines_visible := spines_visible ax |}).

Definition hide_spines : M unit :=
  modify_ax (fun ax =>
    {| artists := artists ax; xticks := xticks ax; yticks := yticks ax;
       xlim := xlim ax; ylim := ylim ax; spines_visible := false |}).

Definition weight_of (bold : bool) : option string :=
  if bold then Some "bold" else None.

(** ** [Timeline.plot] *)

(** The body of [for name, age in self.ages.items()]. *)
Definition plot_age (item : string * Age.t) : M unit :=
  let (name, age) := item in
  (* top bar with label *)
  add_artist (Axvspan (Age.start age) (Age.end_ age) (Age.y age) (dec 1.0)
                (Age.color age) (Age.top_alpha age) (int 0)) ;;
  add_artist (Text (np.mean [Age.start age; Age.end_ age]) (dec 0.95) name
                {| text_url := Age.url age; text_c := None;
                   text_fontsize := Some (int 12); text_weight := None;
                   text_ha := "center"; text_va := "center" |}) ;;
  (* color block below *)
  add_artist (Axvspan (Age.start age) (Age.end_ age) (dec 0.0) (Age.y age)
                (Age.color age) (Age.bottom_alpha age) (int 0)).

(** The body of [for name, period in self.periods.items()]. *)
Definition plot_period (item : string * Period.t) : M unit :=
  let (name, period) := item in
  let x := np.linspace (Period.start period) (Period.end_ period) in
  let y := Period.y period in
  let h := Period.h period in
  (* white bar behind *)
  add_artist (FillBetween x (y - h) (y + h) "w" None (int 0)) ;;
  (* color bar *)
  add_artist (FillBetween x (y - h) (y + h) (Period.color period)
                (Some (Period.alpha period)) (int 0)) ;;
  (* label the bar *)
  let weight := weight_of (Period.bold period) in
  add_artist (Text (np.mean x) y name
                {| text_url := Period.url period; text_c := None;
                   text_fontsize := Some (Period.fontsize period);
                   text_weight := weight;
                   text_ha := "center"; text_va := "center" |}).

(** The body of [for name, country in self.countries.items()]. *)
Definition plot_country (country_offset : num) (item : string * Country.t)
  : M unit :=
  let (name, country) := item in
  s <- prop start ;;
  add_artist (Text (s - country_offset) (Country.y country) name
                {| text_url := None; text_c := None;
                   text_fontsize := None; text_weight := None;
                   text_ha := "right"; text_va := "center" |}).

(** The body of [for y in y_fences]. *)
Definition plot_fence (fence_color : string) (fence_alpha : num) (y : num)
  : M unit :=
  s <- prop start ;;
  e <- prop end_ ;;
  add_artist (Line2D [s; e] [y; y] fence_color "--" fence_alpha (int 0)).

(** The body of [for name, event in self.events.items()]. *)
Definition plot_event (item : string * Event.t) : M unit :=
  let (name, event) := item in
  let weight := weight_of (Event.bold event) in
  add_artist (Text (Event.year event) (Event.y event) name
                {| text_url := Event.url event;
                   text_c := Some (Event.color event);
                   text_fontsize := Some (Event.fontsize event);
                   text_weight := weight;
                   text_ha := "center"; text_va := "center" |}).

(** [return fig]: the figure created by [plt.subplots] with the axes as
    drawn so far. *)
Definition return_fig (figsize : num * num) (dpi : num) : M Figure :=
  fun w => (Ok {| figsize := figsize; dpi := dpi; fig_axes := ax w |}, w).

(** The block [if fences: ...]: compute [y_fences], then draw them. *)
Definition plot_fences (fences : bool) (fence_color : string)
    (fence_alpha : num) : M unit :=
  if fences then
    y_countries <- gets (fun self => map Country.y (values (countries self))) ;;
    y_fences <- lift (y_fences y_countries) ;;
    for_ y_fences (plot_fence fence_color fence_alpha)
  else ret tt.

Definition first_tick (start : num) : num :=
  (floordiv (start - int 1) (int 100) + int 1) * int 100.
Definition final_tick (end_ : num) : num :=
  (floordiv end_ (int 100) + int 1) * int 100.

Definition plot (figsize : num * num) (dpi country_offset : num)
    (fences : bool) (fence_color : string) (fence_alpha : num)
    (hide_yaxis : bool) : M Figure :=
  (* create the figure *)
  subplots ;;
  (* plot the ages *)
  l <- gets (fun self => items (ages self)) ;;
  for_ l plot_age ;;
  (* plot the periods *)
  l <- gets (fun self => items (periods self)) ;;
  for_ l plot_period ;;
  (* label the countries *)
  l <- gets (fun self => items (countries self)) ;;
  for_ l (plot_country country_offset) ;;
  (* put fences around the countries *)
  plot_fences fences fence_color fence_alpha ;;
  (* plot the events *)
  l <- gets (fun self => items (events self)) ;;
  for_ l plot_event ;;
  (* create the x ticks *)
  s <- prop start ;;
  e <- prop end_ ;;
  set_xticks (np.arange (first_tick s) (final_tick e) (int 100)) ;;
  (* set the y axis *)
  s <- prop start ;;
  e <- prop end_ ;;
  set_lims (int 0, int 1) (s, e) ;;
  (* hide the y axis *)
  (if hide_yaxis then set_yticks [] ;; hide_spines else ret tt) ;;
  return_fig figsize dpi.

(** The default arguments of [plot]. *)
Definition plot_default : M Figure :=
  plot (int 16, int 10) (int 100) (int 10) true "k" (dec 0.2) true.

(** ** Building a timeline from a sequence of insertions *)

Definition add_countries (self : Timeline)
    (cs : list (string * Country.t)) : Timeline :=
  fold_left (fun t c => add_country t (fst c) (Country.y (snd c))
                          (Country.url (snd c))) cs self.

(** The fences drawn for a timeline: the [y_fences] array that [plot]
    computes from [self.countries]. *)
Definition fences_of (self : Timeline) : result (list num) :=
  y_fences (map Country.y (values (countries self))).

(** The tick array that [plot] passes to [ax.set(xticks=...)]. *)
Definition xticks_of (self : Timeline) : result (list num) :=
  match start self with
  | Raise e => Raise e
  | Ok s =>
      match end_ self with
      | Raise e => Raise e
      | Ok e => Ok (np.arange (first_tick s) (final_tick e) (int 100))
      end
  end.

(** ** Specification vocabulary *)

(** The invariant of the four dicts: a key occurs once. *)
Definition wf (self : Timeline) : Prop :=
  NoDup (keys (ages self)) /\ NoDup (keys (periods self)) /\
  NoDup (keys (countries self)) /\ NoDup (keys (events self)).

(** [d'] is [d] with the record under [name] replaced by [v]: the key is
    looked up to [v], no other record is stored under it, and the keys
    and their order are those of [d]. *)
Definition replaced {V} (d d' : dict V) (name : string) (v : V) : Prop :=
  dict_get d' name = Some v /\
  (forall v', In (name, v') (items d') -> v' = v) /\
  keys d' = keys d /\
  NoDup (keys d').

(** [d] and [d'] agree on every key other than [name]. *)
Definition same_elsewhere {V} (d d' : dict V) (name : string) : Prop :=
  forall name', name' <> name -> dict_get d' name' = dict_get d name'.

(** The time coordinates of a timeline: every age's start and end, every
    period's start and end, every event's year. *)
Definition time_coordinate (self : Timeline) (x : num) : Prop :=
  (exists name age, In (name, age) (items (ages self)) /\
                    (x = Age.start age \/ x = Age.end_ age)) \/
  (exists name period, In (name, period) (items (periods self)) /\
                    (x = Period.start period \/ x = Period.end_ period)) \/
  (exists name event, In (name, event) (items (events self)) /\
                    x = Event.year event).

Definition no_temporal_data (self : Timeline) : Prop :=
  ages self = [] /\ periods self = [] /\ events self = [].

(** [self] with another countries dict. *)
Definition with_countries (self : Timeline) (cs : dict Country.t) : Timeline :=
  {| ages := ages self; periods := periods self;
     countries := cs; events := events self |}.

(** A result that is an exception of the given class. *)
Definition raises_class {A} (r : result A) (cls : string) : Prop :=
  exists e, r = Raise e /\ exn_class e = cls.

(** Ascending order of a sequence of positions. *)
Definition ascending (l : list num) : Prop := Sorted Qcle l.

(** The means of the consecutive pairs of a sequence. *)
Fixpoint consecutive_means (l : list num) : list num :=
  match l with
  | a :: (b :: _) as r => (a + b) / int 2 :: consecutive_means r
  | _ => []
  end.

(** The greatest element of a non-empty sequence. *)
Definition greatest (l : list num) : num :=
  match l with
  | [] => int 0
  | x :: r => fold_left np.maximum r x
  end.

Fixpoint insert_ascending (x : num) (l : list num) : list num :=
  match l with
  | [] => [x]
  | y :: r => if num_leb x y then x :: l else y :: insert_ascending x r
  end.

Definition sort_ascending (l : list num) : list num :=
  fold_right insert_ascending [] l.

(** Fence placement as the specification words it: sort the positions
    ascending; for two or more, one fence at the mean of every two
    consecutive sorted positions and a top fence at twice the greatest
    position minus the greatest interior fence; for one position [y], a
    fence at [2 * y]; for none, no fence.  Used only to compare
    [y_fences] with. *)
Definition spec_y_fences (ys : list num) : list num :=
  let sorted := sort_ascending ys in
  match sorted with
  | [] => []
  | [y] => [int 2 * y]
  | _ :: _ :: _ =>
      let interior := consecutive_means sorted in
      interior ++ [int 2 * greatest sorted - greatest interior]
  end.

(** Three countries at 10, 20 and 40, inserted bottom-up and in another
    order. *)
Definition three_countries : list (string * Country.t) :=
  [("A", Country.Build (int 10) None); ("B", Country.Build (int 20) None);
   ("C", Country.Build (int 40) None)].
Definition three_countries_shuffled : list (string * Country.t) :=
  [("B", Country.Build (int 20) None); ("A", Country.Build (int 10) None);
   ("C", Country.Build (int 40) None)].

(** Multiples of 100, the tick positions. *)
Definition multiple_of_100 (x : num) : Prop :=
  exists k : Z, x = int k * int 100.

Definition smallest_multiple_above (m x : num) : Prop :=
  multiple_of_100 m /\ x < m /\
  forall m', multiple_of_100 m' -> x < m' -> m <= m'.

Definition greatest_multiple_upto (m x : num) : Prop :=
  multiple_of_100 m /\ m <= x /\
  forall m', multiple_of_100 m' -> m' <= x -> m' <= m.

(** [(x // 100 + 1) * 100], the shape of both tick bounds. *)
Definition next_multiple (x : num) : num :=
  (floordiv x (int 100) + int 1) * int 100.

(** One age from 100 to 200 and one event in 250. *)
Definition age_and_event : Timeline :=
  add_event
    (add_age Timeline_init "age" (int 100) (int 200) "C0" Age.default_y
       Age.default_top_alpha Age.default_bottom_alpha None)
    "event" (int 250) (dec 0.5) Event.default_color Event.default_fontsize
    Event.default_bold None.

(** ** What [plot] draws *)

(** A computation that leaves the object as it found it. *)
Definition preserves_self {A} (m : M A) : Prop :=
  forall w, obj (snd (m w)) = obj w.

(** The state after drawing the artists [l], in order. *)
Definition add_artists (w : World) (l : list Artist) : World :=
  {| obj := obj w;
     ax := {| artists := artists (ax w) ++ l; xticks := xticks (ax w);
              yticks := yticks (ax w); xlim := xlim (ax w);
              ylim := ylim (ax w);
              spines_visible := spines_visible (ax w) |} |}.

(** What one turn of each loop of [plot] draws. *)
Definition age_artists (item : string * Age.t) : list Artist :=
  let (name, age) := item in
  [Axvspan (Age.start age) (Age.end_ age) (Age.y age) (dec 1.0)
     (Age.color age) (Age.top_alpha age) (int 0);
   Text (np.mean [Age.start age; Age.end_ age]) (dec 0.95) name
     {| text_url := Age.url age; text_c := None;
        text_fontsize := Some (int 12); text_weight := None;
        text_ha := "center"; text_va := "center" |};
   Axvspan (Age.start age) (Age.end_ age) (dec 0.0) (Age.y age)
     (Age.color age) (Age.bottom_alpha age) (int 0)].

Definition period_artists (item : string * Period.t) : list Artist :=
  let (name, period) := item in
  let x := np.linspace (Period.start period) (Period.end_ period) in
  let y := Period.y period in
  let h := Period.h period in
  [FillBetween x (y - h) (y + h) "w" None (int 0);
   FillBetween x (y - h) (y + h) (Period.color period)
     (Some (Period.alpha period)) (int 0);
   Text (np.mean x) y name
     {| text_url := Period.url period; text_c := None;
        text_fontsize := Some (Period.fontsize period);
        text_weight := weight_of (Period.bold period);
        text_ha := "center"; text_va := "center" |}].

Definition country_artists (s country_offset : num)
    (item : string * Country.t) : list Artist :=
  let (name, country) := item in
  [Text (s - country_offset) (Country.y country) name
     {| text_url := None; text_c := None;
        text_fontsize := None; text_weight := None;
        text_ha := "right"; text_va := "center" |}].

Definition fence_artists (s e : num) (fence_color : string)
    (fence_alpha : num) (y : num) : list Artist :=
  [Line2D [s; e] [y; y] fence_color "--" fence_alpha (int 0)].

Definition event_artists (item : string * Event.t) : list Artist :=
  let (name, event) := item in
  [Text (Event.year event) (Event.y event) name
     {| text_url := Event.url event;
        text_c := Some (Event.color event);
        text_fontsize := Some (Event.fontsize event);
        text_weight := weight_of (Event.bold event);
        text_ha := "center"; text_va := "center" |}].

(** The y positions of the dashed lines of a figure. *)
Definition fence_lines_of (l : list Artist) : list num :=
  flat_map (fun a => match a with
                     | Line2D _ (y :: _) _ _ _ _ => [y]
                     | _ => []
                     end) l.
Definition fence_lines (fig : Figure) : list num :=
  fence_lines_of (artists (fig_axes fig)).

(** The figure that [plot] returns on a timeline with derived range [s],
    [e] and fences [fs]. *)
Definition expected_figure (self : Timeline) (s e : num) (fs : list num)
    (figsize : num * num) (dpi country_offset : num)
    (fences : bool) (fence_color : string) (fence_alpha : num)
    (hide_yaxis : bool) : Figure :=
  {| figsize := figsize; dpi := dpi;
     fig_axes :=
       {| artists :=
            flat_map age_artists (items (ages self))
            ++ flat_map period_artists (items (periods self))
            ++ flat_map (country_artists s country_offset)
                 (items (countries self))
            ++ (if fences
                then flat_map (fence_artists s e fence_color fence_alpha) fs
                else [])
            ++ flat_map event_artists (items (events self));
          xticks := Some (np.arange (first_tick s) (final_tick e) (int 100));
          yticks := if hide_yaxis then Some [] else None;
          xlim := Some (s, e);
          ylim := Some (int 0, int 1);
          spines_visible := negb hide_yaxis |} |}.

(** ** Numbers: order and arithmetic *)

Lemma num_leb_le (a b : num) : num_leb a b = true <-> a <= b.
Proof. unfold num_leb, Qcle. apply Qle_bool_iff. Qed.

Lemma num_leb_gt (a b : num) : num_leb a b = false -> b <= a.
Proof.
  intros H. apply Qclt_le_weak, Qcnot_le_lt. intros Hle.
  apply num_leb_le in Hle. congruence.
Qed.

Lemma minimum_le_l a b : np.minimum a b <= a.
Proof.
  unfold np.minimum. destruct (num_leb a b) eqn:E.
  - apply Qcle_refl.
  - now apply num_leb_gt.
Qed.

Lemma minimum_le_r a b : np.minimum a b <= b.
Proof.
  unfold np.minimum. destruct (num_leb a b) eqn:E.
  - now apply num_leb_le.
  - apply Qcle_refl.
Qed.

Lemma minimum_cases a b : np.minimum a b = a \/ np.minimum a b = b.
Proof. unfold np.minimum. destruct (num_leb a b); auto. Qed.

Lemma maximum_ge_l a b : a <= np.maximum a b.
Proof.
  unfold np.maximum. destruct (num_leb a b) eqn:E.
  - now apply num_leb_le.
  - apply Qcle_refl.
Qed.

Lemma maximum_ge_r a b : b <= np.maximum a b.
Proof.
  unfold np.maximum. destruct (num_leb a b) eqn:E.
  - apply Qcle_refl.
  - now apply num_leb_gt.
Qed.

Lemma maximum_cases a b : np.maximum a b = a \/ np.maximum a b = b.
Proof. unfold np.maximum. destruct (num_leb a b); auto. Qed.

Lemma fold_minimum_spec (r : list num) : forall x,
  In (fold_left np.minimum r x) (x :: r) /\
  forall z, In z (x :: r) -> fold_left np.minimum r x <= z.
Proof.
  induction r as [|y r IH]; intros x; simpl.
  - split; [now left|]. intros z [<-|[]]. apply Qcle_refl.
  - destruct (IH (np.minimum x y)) as [Hin Hle]. split.
    + destruct Hin as [Hin|Hin]; [|now right; right].
      rewrite <- Hin. destruct (minimum_cases x y) as [->| ->]; auto.
    + intros z [<-|[<-|Hz]].
      * eapply Qcle_trans; [apply Hle; now left | apply minimum_le_l].
      * eapply Qcle_trans; [apply Hle; now left | apply minimum_le_r].
      * apply Hle. now right.
Qed.

Lemma fold_maximum_spec (r : list num) : forall x,
  In (fold_left np.maximum r x) (x :: r) /\
  forall z, In z (x :: r) -> z <= fold_left np.maximum r x.
Proof.
  induction r as [|y r IH]; intros x; simpl.
  - split; [now left|]. intros z [<-|[]]. apply Qcle_refl.
  - destruct (IH (np.maximum x y)) as [Hin Hle]. split.
    + destruct Hin as [Hin|Hin]; [|now right; right].
      rewrite <- Hin. destruct (maximum_cases x y) as [->| ->]; auto.
    + intros z [<-|[<-|Hz]].
      * eapply Qcle_trans; [apply maximum_ge_l | apply Hle; now left].
      * eapply Qcle_trans; [apply maximum_ge_r | apply Hle; now left].
      * apply Hle. now right.
Qed.

(** [np.min] of a non-empty array returns its least element. *)
Lemma np_min_spec (a : list num) :
  a <> [] ->
  exists m, np.min a = Ok m /\ In m a /\ forall z, In z a -> m <= z.
Proof.
  destruct a as [|x r]; [congruence|]. intros _.
  exists (fold_left np.minimum r x). split; [reflexivity|].
  apply fold_minimum_spec.
Qed.

(** [np.max] of a non-empty array returns its greatest element. *)
Lemma np_max_spec (a : list num) :
  a <> [] ->
  exists m, np.max a = Ok m /\ In m a /\ forall z, In z a -> z <= m.
Proof.
  destruct a as [|x r]; [congruence|]. intros _.
  exists (fold_left np.maximum r x). split; [reflexivity|].
  apply fold_maximum_spec.
Qed.

(** ** Dicts *)

Section DictFacts.
Context {V : Type}.
Implicit Types (d : dict V) (k : string) (v : V).

Lemma dict_get_set_eq d k v : dict_get (dict_set d k v) k = Some v.
Proof.
  induction d as [|[k' v'] r IH]; simpl.
  - now rewrite String.eqb_refl.
  - destruct (String.eqb k' k) eqn:E; simpl.
    + now rewrite String.eqb_refl.
    + now rewrite E.
Qed.

Lemma dict_get_set_neq d k k' v :
  k' <> k -> dict_get (dict_set d k v) k' = dict_get d k'.
Proof.
  intros Hne. induction d as [|[k0 v0] r IH]; simpl.
  - destruct (String.eqb k k') eqn:E; [|reflexivity].
    apply String.eqb_eq in E. congruence.
  - destruct (String.eqb k0 k) eqn:E; simpl.
    + apply String.eqb_eq in E. subst k0.
      destruct (String.eqb k k') eqn:E'; [|reflexivity].
      apply String.eqb_eq in E'. congruence.
    + now rewrite IH.
Qed.

(** Assigning to a present key keeps the keys and their order. *)
Lemma keys_set_present d k v :
  In k (keys d) -> keys (dict_set d k v) = keys d.
Proof.
  induction d as [|[k' v'] r IH]; simpl; [tauto|].
  intros Hin. destruct (String.eqb k' k) eqn:E; simpl.
  - apply String.eqb_eq in E. now subst.
  - f_equal. apply IH. destruct Hin as [Heq|Hin]; [|exact Hin].
    apply String.eqb_neq in E. congruence.
Qed.

(** Assigning to an absent key appends it. *)
Lemma dict_set_absent d k v :
  ~ In k (keys d) -> dict_set d k v = d ++ [(k, v)].
Proof.
  induction d as [|[k' v'] r IH]; simpl; [reflexivity|].
  intros Hnin. destruct (String.eqb k' k) eqn:E.
  - apply String.eqb_eq in E. tauto.
  - f_equal. apply IH. tauto.
Qed.

Lemma keys_set_NoDup d k v :
  NoDup (keys d) -> NoDup (keys (dict_set d k v)).
Proof.
  intros Hnd. destruct (in_dec string_dec k (keys d)) as [Hin|Hnin].
  - now rewrite keys_set_present.
  - rewrite dict_set_absent by assumption. unfold keys.
    rewrite map_app. simpl.
    apply NoDup_app; [exact Hnd | repeat constructor; simpl; tauto |].
    intros x Hx [<-|[]]. now apply Hnin.
Qed.

Lemma dict_get_In d k v :
  NoDup (keys d) -> In (k, v) d -> dict_get d k = Some v.
Proof.
  induction d as [|[k' v'] r IH]; simpl; [tauto|].
  intros Hnd [Heq|Hin].
  - inversion Heq; subst. now rewrite String.eqb_refl.
  - inversion Hnd as [|? ? Hnin Hnd']; subst.
    destruct (String.eqb k' k) eqn:E.
    + apply String.eqb_eq in E. subst k'. exfalso. apply Hnin.
      change k with (fst (k, v)). now apply in_map.
    + now apply IH.
Qed.

(** Overwriting: the second assignment to a key wins, whatever the
    first one stored. *)
Lemma dict_set_set d k v v' :
  dict_set (dict_set d k v) k v' = dict_set d k v'.
Proof.
  induction d as [|[k0 v0] r IH]; simpl.
  - now rewrite String.eqb_refl.
  - destruct (String.eqb k0 k) eqn:E; simpl.
    + now rewrite String.eqb_refl.
    + now rewrite E, IH.
Qed.

Lemma dict_set_replaced d k v :
  NoDup (keys d) -> In k (keys d) -> replaced d (dict_set d k v) k v.
Proof.
  intros Hnd Hin. unfold replaced.
  assert (Hnd' : NoDup (keys (dict_set d k v))) by now apply keys_set_NoDup.
  repeat split.
  - apply dict_get_set_eq.
  - intros v' Hv'. apply (dict_get_In _ _ _ Hnd') in Hv'.
    rewrite dict_get_set_eq in Hv'. congruence.
  - now apply keys_set_present.
  - exact Hnd'.
Qed.

Lemma dict_set_same_elsewhere d k v : same_elsewhere d (dict_set d k v) k.
Proof. intros k' Hne. now apply dict_get_set_neq. Qed.
End DictFacts.

(** The invariant holds initially and every insertion keeps it. *)
Lemma wf_init : wf Timeline_init.
Proof. repeat split; constructor. Qed.

Lemma wf_add_age self name s e c y ta ba url :
  wf self -> wf (add_age self name s e c y ta ba url).
Proof.
  intros (Ha & Hp & Hc & He). repeat split; simpl; auto using keys_set_NoDup.
Qed.

Lemma wf_add_period self name s e y c a f b h url :
  wf self -> wf (add_period self name s e y c a f b h url).
Proof.
  intros (Ha & Hp & Hc & He). repeat split; simpl; auto using keys_set_NoDup.
Qed.

Lemma wf_add_event self name yr y c f b url :
  wf self -> wf (add_event self name yr y c f b url).
Proof.
  intros (Ha & Hp & Hc & He). repeat split; simpl; auto using keys_set_NoDup.
Qed.

Lemma wf_add_country self name y url :
  wf self -> wf (add_country self name y url).
Proof.
  intros (Ha & Hp & Hc & He). repeat split; simpl; auto using keys_set_NoDup.
Qed.

(** ** Insertion *)

(** C8.  Each of [add_age], [add_period], [add_event] and [add_country],
    called with a name that its collection already holds, replaces the
    record stored under that name by the record built from the new
    arguments, field for field: looking the name up gives exactly the new
    record, no other record remains under the name, and the names of the
    collection stay unique and in place.  Inserting twice under one name
    gives the timeline that the second insertion alone gives. *)
Theorem add_replaces_existing (self : Timeline) (name : string)
    (Hwf : wf self) :
  (forall s e c y ta ba url,
      In name (keys (ages self)) ->
      replaced (ages self) (ages (add_age self name s e c y ta ba url))
        name (Age.Build s e c y ta ba url)) /\
  (forall s e y c a f b h url,
      In name (keys (periods self)) ->
      replaced (periods self)
        (periods (add_period self name s e y c a f b h url))
        name (Period.Build s e y c a f b h url)) /\
  (forall yr y c f b url,
      In name (keys (events self)) ->
      replaced (events self) (events (add_event self name yr y c f b url))
        name (Event.Build yr y c f b url)) /\
  (forall y url,
      In name (keys (countries self)) ->
      replaced (countries self) (countries (add_country self name y url))
        name (Country.Build y url)) /\
  (* inserting twice under the name leaves what inserting the second
     record alone leaves: nothing of the first record is kept *)
  (forall s e c y ta ba url s' e' c' y' ta' ba' url',
      add_age (add_age self name s e c y ta ba url)
        name s' e' c' y' ta' ba' url'
      = add_age self name s' e' c' y' ta' ba' url') /\
  (forall s e y c a f b h url s' e' y' c' a' f' b' h' url',
      add_period (add_period self name s e y c a f b h url)
        name s' e' y' c' a' f' b' h' url'
      = add_period self name s' e' y' c' a' f' b' h' url') /\
  (forall yr y c f b url yr' y' c' f' b' url',
      add_event (add_event self name yr y c f b url) name yr' y' c' f' b' url'
      = add_event self name yr' y' c' f' b' url') /\
  (forall y url y' url',
      add_country (add_country self name y url) name y' url'
      = add_country self name y' url').
Proof.
  destruct Hwf as (Ha & Hp & Hc & He).
  repeat match goal with |- _ /\ _ => split end; intros;
    try (simpl; apply dict_set_replaced; assumption).
  - unfold add_age. simpl. now rewrite dict_set_set.
  - unfold add_period. simpl. now rewrite dict_set_set.
  - unfold add_event. simpl. now rewrite dict_set_set.
  - unfold add_country. simpl. now rewrite dict_set_set.
Qed.


Lemma add_replaces_existing_witness :
  replaced (ages age_and_event)
    (ages (add_age age_and_event "age" (int 300) (int 400) "C1"
             (dec 0.8) (dec 0.3) (dec 0.2) (Some "https://example.org")))
    "age"
    (Age.Build (int 300) (int 400) "C1" (dec 0.8) (dec 0.3) (dec 0.2)
       (Some "https://example.org")).
Proof.
  assert (Hwf : wf age_and_event)
    by (repeat split; repeat constructor; simpl; tauto).
  apply (proj1 (add_replaces_existing age_and_event "age" Hwf)).
  simpl. now left.
Defined.


(** C10.  Each insertion touches only its own collection, and there only
    the entry under the given name: the three other dicts are returned as
    they were, and every other name of its own dict looks up as before. *)
Theorem add_frame (self : Timeline) (name : string) :
  (forall s e c y ta ba url,
      let self' := add_age self name s e c y ta ba url in
      periods self' = periods self /\ events self' = events self /\
      countries self' = countries self /\
      same_elsewhere (ages self) (ages self') name) /\
  (forall s e y c a f b h url,
      let self' := add_period self name s e y c a f b h url in
      ages self' = ages self /\ events self' = events self /\
      countries self' = countries self /\
      same_elsewhere (periods self) (periods self') name) /\
  (forall yr y c f b url,
      let self' := add_event self name yr y c f b url in
      ages self' = ages self /\ periods self' = periods self /\
      countries self' = countries self /\
      same_elsewhere (events self) (events self') name) /\
  (forall y url,
      let self' := add_country self name y url in
      ages self' = ages self /\ periods self' = periods self /\
      events self' = events self /\
      same_elsewhere (countries self) (countries self') name).
Proof.
  split; [|split; [|split]]; intros; subst self'; simpl;
    repeat (split; [reflexivity|]); apply dict_set_same_elsewhere.
Qed.

(** ** Range derivation *)

Lemma all_years_coordinate (self : Timeline) (x : num) :
  In x (_all_years self) <-> time_coordinate self x.
Proof.
  unfold _all_years, time_coordinate, values, items.
  rewrite !in_app_iff, !in_flat_map, in_map_iff.
  split.
  - intros [(a & Ha & Hx)|[(p & Hp & Hx)|(ev & Hx & Hev)]].
    + apply in_map_iff in Ha as ([n a'] & <- & Hin). left.
      exists n, a'. split; [exact Hin|]. simpl in Hx. intuition.
    + apply in_map_iff in Hp as ([n p'] & <- & Hin). right; left.
      exists n, p'. split; [exact Hin|]. simpl in Hx. intuition.
    + apply in_map_iff in Hev as ([n ev'] & <- & Hin). right; right.
      exists n, ev'. split; [exact Hin|]. now symmetry.
  - intros [(n & a & Hin & Hx)|[(n & p & Hin & Hx)|(n & ev & Hin & Hx)]].
    + left. exists a. split; [now apply (in_map snd) in Hin|].
      simpl. intuition.
    + right; left. exists p. split; [now apply (in_map snd) in Hin|].
      simpl. intuition.
    + right; right. exists ev. split; [now symmetry|].
      now apply (in_map snd) in Hin.
Qed.

Lemma all_years_nonempty (self : Timeline) :
  ages self <> [] \/ periods self <> [] \/ events self <> [] ->
  _all_years self <> [].
Proof.
  unfold _all_years, values.
  destruct (ages self) as [|[? ?] ?]; simpl; [|discriminate].
  destruct (periods self) as [|[? ?] ?]; simpl; [|discriminate].
  destruct (events self) as [|[? ?] ?]; simpl; [|discriminate].
  intros [H|[H|H]]; congruence.
Qed.

Lemma all_years_empty (self : Timeline) :
  no_temporal_data self -> _all_years self = [].
Proof. intros (Ha & Hp & He). unfold _all_years. now rewrite Ha, Hp, He. Qed.

(** With temporal data both ends of the range are defined. *)
Lemma range_defined (self : Timeline) :
  ages self <> [] \/ periods self <> [] \/ events self <> [] ->
  exists s e, start self = Ok s /\ end_ self = Ok e.
Proof.
  intros Hdata. apply all_years_nonempty in Hdata.
  destruct (np_min_spec _ Hdata) as (s & Hs & _).
  destruct (np_max_spec _ Hdata) as (e & He & _).
  now exists s, e.
Qed.

(** C4.  On a timeline with at least one age, period or event, [start]
    returns the least and [end] the greatest of the time coordinates
    (every age's start and end, every period's start and end, every
    event's year); the start is at most the end; and both are the same
    whatever the countries dict holds. *)
Theorem derived_range (self : Timeline)
    (Hdata : ages self <> [] \/ periods self <> [] \/ events self <> []) :
  exists s e,
    start self = Ok s /\ end_ self = Ok e /\
    (time_coordinate self s /\ forall x, time_coordinate self x -> s <= x) /\
    (time_coordinate self e /\ forall x, time_coordinate self x -> x <= e) /\
    s <= e /\
    forall cs, start (with_countries self cs) = Ok s /\
               end_ (with_countries self cs) = Ok e.
Proof.
  apply all_years_nonempty in Hdata.
  destruct (np_min_spec _ Hdata) as (s & Hs & Hsin & Hsle).
  destruct (np_max_spec _ Hdata) as (e & He & Hein & Hele).
  exists s, e. repeat split; try assumption.
  - now apply all_years_coordinate.
  - intros x Hx. now apply Hsle, all_years_coordinate.
  - now apply all_years_coordinate.
  - intros x Hx. now apply Hele, all_years_coordinate.
  - now apply Hsle.
Qed.


Lemma derived_range_witness :
  exists s e,
    start age_and_event = Ok s /\ end_ age_and_event = Ok e /\ s <= e.
Proof.
  destruct (derived_range age_and_event) as (s & e & Hs & He & _ & _ & Hle & _).
  - right; right. simpl. discriminate.
  - exists s, e. repeat split; assumption.
Defined.


(** C3, as the code has it.  On a timeline without ages, periods and
    events, [start] and [end] both fail: each raises the [ValueError] of
    the numeric library's reduction of an empty array.  No number is
    returned. *)
Theorem range_of_empty (self : Timeline) (Hempty : no_temporal_data self) :
  start self = Raise (ValueError
    "zero-size array to reduction operation minimum which has no identity") /\
  end_ self = Raise (ValueError
    "zero-size array to reduction operation maximum which has no identity") /\
  raises_class (start self) "ValueError" /\
  raises_class (end_ self) "ValueError".
Proof.
  unfold start, end_, raises_class. rewrite (all_years_empty _ Hempty). simpl.
  repeat split; eexists; split; reflexivity.
Qed.


Lemma range_of_empty_witness :
  raises_class (start (add_country Timeline_init "A" (int 25) None))
    "ValueError".
Proof.
  apply (range_of_empty (add_country Timeline_init "A" (int 25) None)).
  repeat split.
Defined.


(** C3 as stated fails on the new, empty timeline: the exception of
    [start] is not of a class named [EmptyTimelineError]. *)
Lemma range_of_empty_not_EmptyTimelineError :
  no_temporal_data Timeline_init /\
  ~ raises_class (start Timeline_init) "EmptyTimelineError".
Proof.
  split; [repeat split|]. intros (e & He & Hcls).
  inversion He; subst e. discriminate Hcls.
Qed.

(** ** Fence placement *)

Lemma consecutive_means_cons (a b : num) (r : list num) :
  consecutive_means (a :: b :: r)
  = (a + b) / int 2 :: consecutive_means (b :: r).
Proof. reflexivity. Qed.

Lemma interior_consecutive_means (ys : list num) :
  map (fun p => (fst p + snd p) / int 2) (combine (tl ys) (removelast ys))
  = consecutive_means ys.
Proof.
  destruct ys as [|a ys]; [reflexivity|]. revert a.
  induction ys as [|b r IH]; intros a; [reflexivity|].
  change (removelast (a :: b :: r)) with (a :: removelast (b :: r)).
  rewrite consecutive_means_cons. cbn [tl combine map fst snd].
  f_equal.
  - now rewrite Qcplus_comm.
  - apply (IH b).
Qed.

Lemma consecutive_means_length (ys : list num) :
  List.length (consecutive_means ys) = (List.length ys - 1)%nat.
Proof.
  destruct ys as [|a ys]; [reflexivity|]. revert a.
  induction ys as [|b r IH]; intros a; [reflexivity|].
  rewrite consecutive_means_cons. cbn [List.length]. rewrite (IH b).
  simpl. lia.
Qed.

Lemma consecutive_means_nth (ys : list num) (i : nat) :
  (S i < List.length ys)%nat ->
  nth i (consecutive_means ys) (int 0)
  = (nth i ys (int 0) + nth (S i) ys (int 0)) / int 2.
Proof.
  revert i. destruct ys as [|a ys]; [simpl; lia|]. revert a.
  induction ys as [|b r IH]; intros a i Hi; [simpl in Hi; lia|].
  rewrite consecutive_means_cons.
  destruct i as [|i]; [reflexivity|].
  cbn [nth]. apply (IH b). simpl in *. lia.
Qed.

Lemma np_max_greatest (l : list num) :
  l <> [] -> np.max l = Ok (greatest l).
Proof. destruct l; [congruence|reflexivity]. Qed.

(** The shape of [y_fences] on two or more positions. *)
Lemma y_fences_two_or_more (ys : list num) :
  (2 <= List.length ys)%nat ->
  y_fences ys = Ok (consecutive_means ys
                    ++ [int 2 * greatest ys - greatest (consecutive_means ys)]).
Proof.
  intros Hn. unfold y_fences.
  destruct (Nat.ltb_spec 1 (List.length ys)) as [_|]; [|lia].
  rewrite interior_consecutive_means.
  rewrite !np_max_greatest; [reflexivity| |].
  - destruct ys as [|a [|b r]]; simpl in *; try lia. discriminate.
  - destruct ys; simpl in *; [lia|discriminate].
Qed.

(** [y_fences] never raises, and returns as many fences as positions. *)
Lemma y_fences_total (ys : list num) :
  exists fs, y_fences ys = Ok fs /\ List.length fs = List.length ys.
Proof.
  destruct (Nat.le_gt_cases 2 (List.length ys)) as [Hn|Hn].
  - rewrite (y_fences_two_or_more _ Hn). eexists. split; [reflexivity|].
    rewrite length_app, consecutive_means_length. simpl. lia.
  - unfold y_fences.
    destruct (Nat.ltb_spec 1 (List.length ys)) as [|_]; [lia|].
    eexists. split; [reflexivity|]. apply length_map.
Qed.

Lemma Qcle_StronglySorted (l : list num) :
  ascending l -> StronglySorted Qcle l.
Proof.
  apply Sorted_StronglySorted. intros x y z. apply Qcle_trans.
Qed.

(** Two ascending sequences with the same elements are equal. *)
Lemma ascending_unique (l1 l2 : list num) :
  ascending l1 -> ascending l2 -> Permutation l1 l2 -> l1 = l2.
Proof.
  intros H1 H2. apply Qcle_StronglySorted in H1, H2.
  revert l2 H2. induction H1 as [|a l1 Hs1 IH Ha]; intros l2 H2 Hp.
  - now apply Permutation_nil in Hp.
  - destruct H2 as [|b l2 Hs2 Hb];
      [now apply Permutation_sym, Permutation_nil in Hp|].
    assert (Hab : a = b).
    { apply Qcle_antisym.
      - assert (Hin : In b (a :: l1))
          by (eapply Permutation_in; [apply Permutation_sym, Hp | now left]).
        destruct Hin as [->|Hin]; [apply Qcle_refl|].
        rewrite Forall_forall in Ha. now apply Ha.
      - assert (Hin : In a (b :: l2))
          by (eapply Permutation_in; [apply Hp | now left]).
        destruct Hin as [->|Hin]; [apply Qcle_refl|].
        rewrite Forall_forall in Hb. now apply Hb. }
    subst b. f_equal. apply IH; [exact Hs2|].
    now apply Permutation_cons_inv in Hp.
Qed.

Lemma sort_ascending_fixed (l : list num) :
  ascending l -> sort_ascending l = l.
Proof.
  unfold ascending, sort_ascending.
  induction 1 as [|a l Hs IH Hhd]; [reflexivity|].
  simpl. rewrite IH. destruct Hhd as [|b l' Hab]; [reflexivity|].
  simpl. apply num_leb_le in Hab. now rewrite Hab.
Qed.

(** On positions that are already ascending the code computes what the
    specification describes. *)
Lemma y_fences_ascending (ys : list num) :
  ascending ys -> y_fences ys = Ok (spec_y_fences ys).
Proof.
  intros Hs. unfold spec_y_fences. rewrite (sort_ascending_fixed _ Hs).
  destruct ys as [|a [|b r]]; try reflexivity.
  now rewrite y_fences_two_or_more by (simpl; lia).
Qed.

(** Inserting countries with fresh, distinct names appends them in
    order. *)
Lemma add_countries_fresh (cs : list (string * Country.t)) :
  forall self,
    NoDup (keys (countries self) ++ map fst cs) ->
    countries (add_countries self cs) = countries self ++ cs.
Proof.
  unfold add_countries.
  induction cs as [|[name [y url]] cs IH]; intros self Hnd; simpl.
  - now rewrite app_nil_r.
  - rewrite IH; simpl.
    + rewrite dict_set_absent.
      * now rewrite <- app_assoc.
      * apply NoDup_remove_2 in Hnd. rewrite in_app_iff in Hnd. tauto.
    + rewrite dict_set_absent.
      * unfold keys in *. rewrite map_app. simpl. rewrite <- app_assoc.
        exact Hnd.
      * apply NoDup_remove_2 in Hnd. rewrite in_app_iff in Hnd. tauto.
Qed.

Lemma add_countries_init (cs : list (string * Country.t)) :
  NoDup (map fst cs) ->
  countries (add_countries Timeline_init cs) = cs.
Proof. intros Hnd. now rewrite add_countries_fresh. Qed.

(** ** Ticks *)

Lemma int_this (z : Z) : (this (int z) == inject_Z z)%Q.
Proof. unfold int, Q2Qc, this. apply Qred_correct. Qed.

Lemma int_plus (a b : Z) : int a + int b = int (a + b).
Proof.
  apply Qc_is_canon. unfold Qcplus, Q2Qc, this at 1.
  rewrite Qred_correct, !int_this. now rewrite inject_Z_plus.
Qed.

Lemma int_lt (a b : Z) : int a < int b <-> (a < b)%Z.
Proof. unfold Qclt. rewrite !int_this. now rewrite Zlt_Qlt. Qed.

Lemma int_le (a b : Z) : int a <= int b <-> (a <= b)%Z.
Proof. unfold Qcle. rewrite !int_this. now rewrite Zle_Qle. Qed.

Lemma int_100_pos : int 0 < int 100.
Proof. now apply (proj2 (int_lt _ _)). Qed.

Lemma mult_100_lt (x y : num) : x * int 100 < y * int 100 <-> x < y.
Proof.
  split; intros H.
  - apply Qcnot_le_lt. intros Hle. apply (Qclt_not_le _ _ H).
    apply Qcmult_le_compat_r; [exact Hle|]. apply Qclt_le_weak, int_100_pos.
  - apply Qcmult_lt_compat_r; [apply int_100_pos | exact H].
Qed.

Lemma mult_100_le (x y : num) : x * int 100 <= y * int 100 <-> x <= y.
Proof.
  split; intros H.
  - apply Qcnot_lt_le. intros Hlt. apply (Qcle_not_lt _ _ H).
    now apply (proj2 (mult_100_lt _ _)).
  - apply Qcmult_le_compat_r; [exact H|]. apply Qclt_le_weak, int_100_pos.
Qed.

(** [a // 100] is the integer [k] with [k * 100 <= a < (k + 1) * 100]. *)
Lemma floordiv_100_spec (a : num) :
  exists k : Z,
    floordiv a (int 100) = int k /\
    int k * int 100 <= a /\ a < int (k + 1) * int 100.
Proof.
  unfold floordiv. set (k := Qfloor (a / int 100)). exists k.
  split; [reflexivity|].
  assert (H100 : (0 < this (int 100))%Q) by (rewrite int_this; reflexivity).
  pose proof (Qfloor_le (a / int 100)) as Hlo.
  pose proof (Qlt_floor (a / int 100)) as Hhi. fold k in Hlo, Hhi.
  split.
  - unfold Qcle, Qcmult, Q2Qc, this at 1. rewrite Qred_correct, int_this.
    destruct (Qlt_le_dec a (inject_Z k * int 100)) as [Hlt|Hle]; [|exact Hle].
    apply (Qlt_shift_div_r _ _ _ H100) in Hlt.
    exfalso. exact (Qlt_not_le _ _ Hlt Hlo).
  - unfold Qclt, Qcmult, Q2Qc, this at 2. rewrite Qred_correct, int_this.
    destruct (Qlt_le_dec a (inject_Z (k + 1) * int 100)) as [Hlt|Hle];
      [exact Hlt|].
    apply (Qle_shift_div_l _ _ _ H100) in Hle.
    exfalso. exact (Qlt_not_le _ _ Hhi Hle).
Qed.

Lemma next_multiple_spec (a : num) :
  smallest_multiple_above (next_multiple a) a.
Proof.
  unfold next_multiple.
  destruct (floordiv_100_spec a) as (k & -> & Hlo & Hhi).
  rewrite int_plus. split; [now exists (k + 1)%Z|]. split; [exact Hhi|].
  intros m' (z & ->) Hz. apply (proj2 (mult_100_le _ _)), (proj2 (int_le _ _)).
  assert (Hkz : int k < int z)
    by (apply (proj1 (mult_100_lt _ _)); eapply Qcle_lt_trans; eassumption).
  apply (proj1 (int_lt _ _)) in Hkz. lia.
Qed.

Lemma prev_multiple_spec (a : num) :
  greatest_multiple_upto (next_multiple a - int 100) a.
Proof.
  unfold next_multiple.
  destruct (floordiv_100_spec a) as (k & -> & Hlo & Hhi).
  assert (E : (int k + int 1) * int 100 - int 100 = int k * int 100).
  { change (int 1) with (1 : Qc). ring. }
  rewrite E. split; [now exists k|]. split; [exact Hlo|].
  intros m' (z & ->) Hz. apply (proj2 (mult_100_le _ _)), (proj2 (int_le _ _)).
  assert (Hzk : int z < int (k + 1))
    by (apply (proj1 (mult_100_lt _ _)); eapply Qcle_lt_trans; eassumption).
  apply (proj1 (int_lt _ _)) in Hzk. lia.
Qed.

Lemma this_mult (x y : num) : (this (x * y) == this x * this y)%Q.
Proof. apply Qred_correct. Qed.

Lemma arange_multiples (a b : Z) :
  np.arange (int a * int 100) (int b * int 100) (int 100)
  = map (fun i => int (a + Z.of_nat i) * int 100) (seq 0 (Z.to_nat (b - a))).
Proof.
  unfold np.arange.
  assert (E : Qceiling ((this (int b * int 100) - this (int a * int 100))
                        / this (int 100))%Q
              = (b - a)%Z).
  { rewrite <- (Qceiling_Z (b - a)). apply Qceiling_comp.
    rewrite !this_mult, !int_this. unfold Z.sub.
    rewrite inject_Z_plus, inject_Z_opp. field. }
  rewrite E. apply map_ext. intros i.
  rewrite <- int_plus. ring.
Qed.


(** ** Running [plot] *)

Lemma add_artists_nil w : add_artists w [] = w.
Proof.
  destruct w as [t [a ? ? ? ? ?]]. unfold add_artists. simpl.
  now rewrite app_nil_r.
Qed.

Lemma add_artists_app w l1 l2 :
  add_artists (add_artists w l1) l2 = add_artists w (l1 ++ l2).
Proof. unfold add_artists. simpl. now rewrite app_assoc. Qed.

Lemma for_draws {A} (t : Timeline) (f : A -> list Artist) (body : A -> M unit) :
  (forall x w, obj w = t -> body x w = (Ok tt, add_artists w (f x))) ->
  forall l w, obj w = t ->
    for_ l body w = (Ok tt, add_artists w (flat_map f l)).
Proof.
  intros Hbody. induction l as [|x l IH]; intros w Hw; simpl.
  - now rewrite add_artists_nil.
  - unfold bind. rewrite (Hbody x w Hw). rewrite IH by exact Hw.
    now rewrite add_artists_app.
Qed.

Lemma plot_age_run item w :
  plot_age item w = (Ok tt, add_artists w (age_artists item)).
Proof.
  destruct item as [name age].
  unfold plot_age, bind, add_artist, modify_ax, add_artists.
  simpl. now rewrite <- !app_assoc.
Qed.

Lemma plot_period_run item w :
  plot_period item w = (Ok tt, add_artists w (period_artists item)).
Proof.
  destruct item as [name p].
  unfold plot_period, bind, add_artist, modify_ax, add_artists.
  cbn -[np.linspace np.mean]. now rewrite <- !app_assoc.
Qed.

Lemma plot_event_run item w :
  plot_event item w = (Ok tt, add_artists w (event_artists item)).
Proof. now destruct item. Qed.

Lemma plot_country_run s off item w :
  start (obj w) = Ok s ->
  plot_country off item w = (Ok tt, add_artists w (country_artists s off item)).
Proof.
  intros Hs. destruct item as [name c]. unfold plot_country, bind, prop.
  now rewrite Hs.
Qed.

Lemma plot_fence_run s e fc fa y w :
  start (obj w) = Ok s -> end_ (obj w) = Ok e ->
  plot_fence fc fa y w = (Ok tt, add_artists w (fence_artists s e fc fa y)).
Proof.
  intros Hs He. unfold plot_fence, bind, prop. now rewrite Hs, He.
Qed.

Lemma fences_run fences fc fa (w : World) (s e : num) (fs : list num) :
  start (obj w) = Ok s -> end_ (obj w) = Ok e -> fences_of (obj w) = Ok fs ->
  plot_fences fences fc fa w
  = (Ok tt, add_artists w (if fences
                           then flat_map (fence_artists s e fc fa) fs
                           else [])).
Proof.
  intros Hs He Hfs. unfold plot_fences. destruct fences.
  - unfold bind at 1, gets. unfold bind at 1, lift.
    unfold fences_of in Hfs. rewrite Hfs.
    apply (for_draws (obj w)); [|reflexivity].
    intros y w' Hw'. apply plot_fence_run; now rewrite Hw'.
  - unfold ret. now rewrite add_artists_nil.
Qed.

(** On a timeline with temporal data [plot] returns the expected figure
    and leaves it as the axes of the state. *)
Lemma plot_ok figsize dpi off fences fc fa hide (w : World) (s e : num)
    (fs : list num) :
  start (obj w) = Ok s -> end_ (obj w) = Ok e -> fences_of (obj w) = Ok fs ->
  let fig := expected_figure (obj w) s e fs figsize dpi off fences fc fa hide in
  plot figsize dpi off fences fc fa hide w
  = (Ok fig, {| obj := obj w; ax := fig_axes fig |}).
Proof.
  intros Hs He Hfs fig. unfold plot.
  unfold bind at 1. unfold subplots at 1, modify_ax at 1.
  set (w0 := {| obj := obj w; ax := new_axes |}).
  assert (H0 : forall l, obj (add_artists w0 l) = obj w) by reflexivity.
  unfold bind at 1, gets at 1. change (obj w0) with (obj w).
  unfold bind at 1.
  rewrite (for_draws (obj w) age_artists) by (auto using plot_age_run).
  unfold bind at 1, gets at 1. rewrite H0.
  unfold bind at 1.
  rewrite (for_draws (obj w) period_artists) by (auto using plot_period_run).
  rewrite add_artists_app.
  unfold bind at 1, gets at 1. rewrite H0.
  unfold bind at 1.
  rewrite (for_draws (obj w) (country_artists s off));
    [|intros x w' Hw'; apply plot_country_run; now rewrite Hw' | apply H0].
  rewrite add_artists_app.
  unfold bind at 1.
  rewrite (fences_run fences fc fa _ s e fs) by (rewrite H0; assumption).
  rewrite add_artists_app.
  unfold bind at 1, gets at 1. rewrite H0.
  unfold bind at 1.
  rewrite (for_draws (obj w) event_artists) by (auto using plot_event_run).
  rewrite add_artists_app.
  unfold bind, prop, set_xticks, set_lims, set_yticks, hide_spines,
    modify_ax, ret, return_fig.
  rewrite H0, Hs, He. cbn [obj]. rewrite Hs, He.
  subst fig. unfold expected_figure, add_artists, w0, new_axes.
  destruct hide; cbn [obj ax artists xticks yticks xlim ylim spines_visible
                      fig_axes negb app]; rewrite <- !app_assoc; reflexivity.
Qed.

Lemma plot_raises figsize dpi off fences fc fa hide (w : World) :
  no_temporal_data (obj w) ->
  exists w',
    plot figsize dpi off fences fc fa hide w
    = (Raise (ValueError
        "zero-size array to reduction operation minimum which has no identity"),
       w') /\
    obj w' = obj w.
Proof.
  destruct w as [[ag pe co ev] a]. intros (Ha & Hp & He). simpl in *. subst.
  destruct co as [|[n c] r]; destruct fences; eexists; split; reflexivity.
Qed.

Lemma has_data_or_not (t : Timeline) :
  no_temporal_data t \/
  (ages t <> [] \/ periods t <> [] \/ events t <> []).
Proof.
  unfold no_temporal_data.
  destruct (ages t); [|right; left; discriminate].
  destruct (periods t); [|right; right; left; discriminate].
  destruct (events t); [|right; right; right; discriminate].
  now left.
Qed.

(** A successful [plot] returns the expected figure. *)
Lemma plot_inv figsize dpi off fences fc fa hide (w : World) (fig : Figure) :
  fst (plot figsize dpi off fences fc fa hide w) = Ok fig ->
  exists s e fs,
    start (obj w) = Ok s /\ end_ (obj w) = Ok e /\
    fences_of (obj w) = Ok fs /\
    fig = expected_figure (obj w) s e fs figsize dpi off fences fc fa hide.
Proof.
  intros Hfig. destruct (has_data_or_not (obj w)) as [Hno|Hdata].
  - destruct (plot_raises figsize dpi off fences fc fa hide w Hno)
      as (w' & Hrun & _).
    rewrite Hrun in Hfig. discriminate Hfig.
  - destruct (range_defined _ Hdata) as (s & e & Hs & He).
    destruct (y_fences_total (map Country.y (values (countries (obj w)))))
      as (fs & Hfs & _).
    exists s, e, fs. repeat split; try assumption.
    rewrite (plot_ok figsize dpi off fences fc fa hide w s e fs Hs He Hfs)
      in Hfig.
    simpl in Hfig. congruence.
Qed.

Lemma no_lines {A} (f : A -> list Artist) (l : list A) :
  (forall x, fence_lines_of (f x) = []) ->
  fence_lines_of (flat_map f l) = [].
Proof.
  intros Hf. induction l as [|x l IH]; [reflexivity|].
  simpl. unfold fence_lines_of in *. now rewrite flat_map_app, Hf, IH.
Qed.

Lemma fence_lines_fences s e fc fa (fs : list num) :
  fence_lines_of (flat_map (fence_artists s e fc fa) fs) = fs.
Proof.
  unfold fence_lines_of.
  induction fs as [|y fs IH]; [reflexivity|]. simpl. now rewrite IH.
Qed.

Lemma fence_lines_expected self s e fs figsize dpi off fc fa hide :
  fence_lines
    (expected_figure self s e fs figsize dpi off true fc fa hide) = fs.
Proof.
  unfold fence_lines, expected_figure. cbn [fig_axes artists].
  unfold fence_lines_of. rewrite !flat_map_app. fold fence_lines_of.
  rewrite fence_lines_fences.
  rewrite !no_lines; try (now intros [? ?]).
  apply app_nil_r.
Qed.

(** ** [plot] only reads [self] *)

Lemma preserves_ret {A} (a : A) : preserves_self (ret a).
Proof. intros w. reflexivity. Qed.

Lemma preserves_bind {A B} (m : M A) (k : A -> M B) :
  preserves_self m -> (forall a, preserves_self (k a)) ->
  preserves_self (bind m k).
Proof.
  intros Hm Hk w. unfold bind. specialize (Hm w).
  destruct (m w) as [[a|e] w']; simpl in *; [|exact Hm].
  now rewrite Hk.
Qed.

Lemma preserves_gets {A} (f : Timeline -> A) : preserves_self (gets f).
Proof. intros w. reflexivity. Qed.

Lemma preserves_prop {A} (f : Timeline -> result A) : preserves_self (prop f).
Proof. intros w. reflexivity. Qed.

Lemma preserves_lift {A} (r : result A) : preserves_self (lift r).
Proof. intros w. reflexivity. Qed.

Lemma preserves_modify_ax (f : Axes -> Axes) : preserves_self (modify_ax f).
Proof. intros w. reflexivity. Qed.

Lemma preserves_for {A} (l : list A) (body : A -> M unit) :
  (forall x, preserves_self (body x)) -> preserves_self (for_ l body).
Proof.
  intros Hbody. induction l as [|x l IH]; simpl.
  - apply preserves_ret.
  - apply preserves_bind; auto.
Qed.

Lemma preserves_return_fig figsize dpi :
  preserves_self (return_fig figsize dpi).
Proof. intros w. reflexivity. Qed.

Lemma preserves_add_artist a : preserves_self (add_artist a).
Proof. apply preserves_modify_ax. Qed.

Lemma preserves_subplots : preserves_self subplots.
Proof. apply preserves_modify_ax. Qed.

Lemma preserves_set_xticks t : preserves_self (set_xticks t).
Proof. apply preserves_modify_ax. Qed.

Lemma preserves_set_yticks t : preserves_self (set_yticks t).
Proof. apply preserves_modify_ax. Qed.

Lemma preserves_set_lims yl xl : preserves_self (set_lims yl xl).
Proof. apply preserves_modify_ax. Qed.

Lemma preserves_hide_spines : preserves_self hide_spines.
Proof. apply preserves_modify_ax. Qed.

Create HintDb reads.
#[local] Hint Resolve preserves_ret preserves_bind preserves_gets
  preserves_prop preserves_lift preserves_modify_ax preserves_for
  preserves_return_fig preserves_add_artist preserves_subplots
  preserves_set_xticks preserves_set_yticks preserves_set_lims
  preserves_hide_spines : reads.

Lemma preserves_plot_age item : preserves_self (plot_age item).
Proof. destruct item. unfold plot_age. auto 10 with reads. Qed.

Lemma preserves_plot_period item : preserves_self (plot_period item).
Proof. destruct item. unfold plot_period. auto 10 with reads. Qed.

Lemma preserves_plot_country off item : preserves_self (plot_country off item).
Proof. destruct item. unfold plot_country. auto 10 with reads. Qed.

Lemma preserves_plot_fence fc fa y : preserves_self (plot_fence fc fa y).
Proof. unfold plot_fence. auto 10 with reads. Qed.

Lemma preserves_plot_event item : preserves_self (plot_event item).
Proof. destruct item. unfold plot_event. auto 10 with reads. Qed.

#[local] Hint Resolve preserves_plot_age preserves_plot_period
  preserves_plot_country preserves_plot_fence preserves_plot_event : reads.

Lemma preserves_plot_fences fences fc fa :
  preserves_self (plot_fences fences fc fa).
Proof. unfold plot_fences. destruct fences; auto 10 with reads. Qed.

Lemma preserves_plot figsize dpi off fences fc fa hide :
  preserves_self (plot figsize dpi off fences fc fa hide).
Proof.
  unfold plot. pose proof (preserves_plot_fences fences fc fa).
  destruct hide; auto 30 with reads.
Qed.

(** [plot] starts from a new axes, so what it does depends on [self]
    only. *)
Lemma plot_fresh figsize dpi off fences fc fa hide (w : World) (a : Axes) :
  plot figsize dpi off fences fc fa hide {| obj := obj w; ax := a |}
  = plot figsize dpi off fences fc fa hide w.
Proof. reflexivity. Qed.


(** ** The fences *)

(** Equality of computed positions is decided on the fractions. *)
Lemma list_num_eq (l1 l2 : list num) :
  map this l1 = map this l2 -> l1 = l2.
Proof.
  revert l2. induction l1 as [|a l1 IH]; intros [|b l2] H;
    try discriminate; [reflexivity|].
  simpl in H. inversion H as [[Hab Hl]]. f_equal; [|now apply IH].
  apply Qc_is_canon. now rewrite Hab.
Qed.

Lemma Ok_list_num_eq (l1 l2 : list num) :
  map this l1 = map this l2 -> Ok l1 = Ok l2.
Proof. intros H. f_equal. now apply list_num_eq. Qed.

Lemma Ok_list_num_neq (l1 l2 : list num) :
  map this l1 <> map this l2 -> Ok l1 <> Ok l2.
Proof. intros H E. apply H. now inversion E. Qed.

(** C5.  The fence computation returns exactly as many fences as there
    are countries: for [n >= 2] countries, [n - 1] interior fences
    followed by one top fence; for one country, one fence; for none,
    none.  A [plot] with fences enabled that returns a figure has drawn
    exactly these fences as dashed lines; with no country it has drawn
    none. *)
Theorem fence_count (self : Timeline) :
  let n := List.length (countries self) in
  exists fs,
    fences_of self = Ok fs /\
    List.length fs = n /\
    ((2 <= n)%nat ->
       exists interior top,
         fs = interior ++ [top] /\ List.length interior = (n - 1)%nat) /\
    (n = 1%nat -> List.length fs = 1%nat) /\
    (n = 0%nat -> fs = []) /\
    (forall figsize dpi off fc fa hide w fig,
       obj w = self ->
       fst (plot figsize dpi off true fc fa hide w) = Ok fig ->
       fence_lines fig = fs).
Proof.
  intros n. unfold fences_of.
  assert (Hlen : List.length (map Country.y (values (countries self))) = n)
    by (unfold values; now rewrite !length_map).
  destruct (y_fences_total (map Country.y (values (countries self))))
    as (fs & Hfs & Hl).
  exists fs. rewrite Hlen in Hl.
  split; [exact Hfs|]. split; [exact Hl|]. split; [|split; [|split]].
  - intros Hn. rewrite y_fences_two_or_more in Hfs by lia.
    inversion Hfs; subst fs. do 2 eexists. split; [reflexivity|].
    now rewrite consecutive_means_length, Hlen.
  - intros Hn. congruence.
  - intros Hn. rewrite Hn in Hl. now destruct fs.
  - intros figsize dpi off fc fa hide w fig Hw Hfig.
    apply plot_inv in Hfig as (s & e & fs' & _ & _ & Hfs' & ->).
    rewrite Hw in Hfs'. unfold fences_of in Hfs'.
    rewrite Hfs in Hfs'. injection Hfs' as <-.
    apply fence_lines_expected.
Qed.

(** C6.  With exactly one country, at position [y], the fence
    computation returns the single fence [2 * y]. *)
Theorem single_country_fence (self : Timeline) (name : string)
    (c : Country.t) (Hone : countries self = [(name, c)]) :
  fences_of self = Ok [int 2 * Country.y c].
Proof. unfold fences_of. now rewrite Hone. Qed.


(** One country at 25 gets the single fence 50. *)
Lemma single_country_fence_witness :
  fences_of (add_country Timeline_init "A" (int 25) None) = Ok [int 50].
Proof.
  rewrite (single_country_fence (add_country Timeline_init "A" (int 25) None)
             "A" (Country.Build (int 25) None) eq_refl).
  apply Ok_list_num_eq. reflexivity.
Defined.


(** C2, as the code has it.  With [n >= 2] countries the fence
    computation returns [n - 1] interior fences followed by one top
    fence.  The [i]-th interior fence is the mean of the [i]-th and the
    [i+1]-th country position in the order of insertion; the code does
    not sort.  The top fence is twice the greatest position minus the
    greatest interior fence.  When the countries were inserted in
    ascending order of position this is the placement on the sorted
    positions; so countries inserted at 10, 20, 40 in that order get the
    fences 15, 30, 50. *)
Theorem fences_two_or_more (self : Timeline)
    (Hn : (2 <= List.length (countries self))%nat) :
  let ys := map Country.y (values (countries self)) in
  exists interior mx mi,
    fences_of self = Ok (interior ++ [int 2 * mx - mi]) /\
    List.length interior = (List.length (countries self) - 1)%nat /\
    (forall i, (S i < List.length ys)%nat ->
       nth i interior (int 0)
       = (nth i ys (int 0) + nth (S i) ys (int 0)) / int 2) /\
    (np.max ys = Ok mx /\ In mx ys /\ forall y, In y ys -> y <= mx) /\
    (np.max interior = Ok mi /\ In mi interior /\
       forall f, In f interior -> f <= mi) /\
    (ascending ys -> fences_of self = Ok (spec_y_fences ys)) /\
    fences_of (add_countries Timeline_init three_countries)
      = Ok [int 15; int 30; int 50].
Proof.
  intros ys.
  assert (Hlen : List.length ys = List.length (countries self))
    by (unfold ys, values; now rewrite !length_map).
  assert (Hys : ys <> []) by (destruct ys; simpl in *; [lia|discriminate]).
  assert (Hint : consecutive_means ys <> []).
  { intros E. apply (f_equal (@List.length num)) in E.
    rewrite consecutive_means_length in E. simpl in E. lia. }
  destruct (np_max_spec _ Hys) as (mx & Hmx & Hmxin & Hmxle).
  destruct (np_max_spec _ Hint) as (mi & Hmi & Hmiin & Hmile).
  exists (consecutive_means ys), mx, mi.
  rewrite np_max_greatest in Hmx, Hmi by assumption.
  injection Hmx as Emx. injection Hmi as Emi.
  split; [|split; [|split; [|split; [|split; [|split]]]]].
  - unfold fences_of. fold ys. rewrite y_fences_two_or_more by lia.
    now rewrite Emx, Emi.
  - rewrite consecutive_means_length. lia.
  - intros i Hi. now apply consecutive_means_nth.
  - rewrite <- Emx at 1. split; [now apply np_max_greatest|]. now split.
  - rewrite <- Emi at 1. split; [now apply np_max_greatest|]. now split.
  - intros Hasc. unfold fences_of. fold ys. now apply y_fences_ascending.
  - apply Ok_list_num_eq. reflexivity.
Qed.


Lemma fences_two_or_more_witness :
  exists interior mx mi,
    fences_of (add_countries Timeline_init three_countries)
    = Ok (interior ++ [int 2 * mx - mi]) /\
    List.length interior = 2%nat.
Proof.
  destruct (fences_two_or_more (add_countries Timeline_init three_countries))
    as (interior & mx & mi & Hf & Hl & _).
  - simpl. lia.
  - exists interior, mx, mi. split; [exact Hf | exact Hl].
Defined.


(** C2 as stated fails when the countries are not inserted in
    ascending order: inserted as 20, 10, 40 they get the fences 15, 25,
    55, while the placement on the sorted positions is 15, 30, 50; the
    fence at 25 is the mean of 10 and 40, which are not consecutive
    sorted positions. *)
Lemma fences_not_on_sorted_positions :
  let self := add_countries Timeline_init three_countries_shuffled in
  let ys := map Country.y (values (countries self)) in
  (2 <= List.length (countries self))%nat /\
  fences_of self = Ok [int 15; int 25; int 55] /\
  spec_y_fences ys = [int 15; int 30; int 50] /\
  fences_of self <> Ok (spec_y_fences ys).
Proof.
  cbv zeta. split; [simpl; lia|]. split; [|split].
  - apply Ok_list_num_eq. reflexivity.
  - apply list_num_eq. reflexivity.
  - apply Ok_list_num_neq. vm_compute. discriminate.
Qed.

(** C1, as the code has it.  The fences are computed from the country
    positions in the order of insertion, without sorting.  Two insertion
    orders of the same countries that both go by ascending position give
    the same fences, namely the placement on the sorted positions. *)
Theorem fences_of_ascending_insertions (cs1 cs2 : list (string * Country.t))
    (Hnames : NoDup (map fst cs1))
    (Hperm : Permutation cs1 cs2)
    (Hasc1 : ascending (map Country.y (map snd cs1)))
    (Hasc2 : ascending (map Country.y (map snd cs2))) :
  fences_of (add_countries Timeline_init cs1)
  = fences_of (add_countries Timeline_init cs2) /\
  fences_of (add_countries Timeline_init cs1)
  = y_fences (map Country.y (map snd cs1)) /\
  fences_of (add_countries Timeline_init cs1)
  = Ok (spec_y_fences (map Country.y (map snd cs1))).
Proof.
  assert (Hnames2 : NoDup (map fst cs2)).
  { eapply Permutation_NoDup; [|exact Hnames]. now apply Permutation_map. }
  unfold fences_of, values. rewrite !add_countries_init by assumption.
  assert (E : map Country.y (map snd cs1) = map Country.y (map snd cs2)).
  { apply ascending_unique; try assumption. now do 2 apply Permutation_map. }
  rewrite <- E. repeat split. now apply y_fences_ascending.
Qed.


(** Two countries share the position 10: both orders are ascending. *)
Lemma fences_of_ascending_insertions_witness :
  let c10 := Country.Build (int 10) None in
  let c40 := Country.Build (int 40) None in
  fences_of (add_countries Timeline_init
               [("A", c10); ("B", c10); ("C", c40)])
  = fences_of (add_countries Timeline_init
                 [("B", c10); ("A", c10); ("C", c40)]).
Proof.
  intros c10 c40.
  apply (fences_of_ascending_insertions
           [("A", c10); ("B", c10); ("C", c40)]
           [("B", c10); ("A", c10); ("C", c40)]).
  - repeat constructor; simpl; intuition discriminate.
  - apply perm_swap.
  - repeat constructor; apply (proj2 (int_le _ _)); lia.
  - repeat constructor; apply (proj2 (int_le _ _)); lia.
Defined.


(** C1 as stated fails: the same three countries, inserted in two
    different orders, get different fences. *)
Lemma fences_depend_on_insertion_order :
  Permutation three_countries three_countries_shuffled /\
  NoDup (map fst three_countries) /\
  fences_of (add_countries Timeline_init three_countries)
    = Ok [int 15; int 30; int 50] /\
  fences_of (add_countries Timeline_init three_countries_shuffled)
    = Ok [int 15; int 25; int 55] /\
  fences_of (add_countries Timeline_init three_countries)
    <> fences_of (add_countries Timeline_init three_countries_shuffled).
Proof.
  split; [apply perm_swap|].
  split; [repeat constructor; simpl; intuition discriminate|].
  split; [apply Ok_list_num_eq; reflexivity|].
  split; [apply Ok_list_num_eq; reflexivity|].
  intros E.
  assert (E' : match fences_of (add_countries Timeline_init three_countries)
               with Ok l => map this l | Raise _ => [] end
             = match fences_of (add_countries Timeline_init
                                  three_countries_shuffled)
               with Ok l => map this l | Raise _ => [] end)
    by now rewrite E.
  vm_compute in E'. discriminate E'.
Qed.


(** ** The ticks *)

Lemma Ok_num_eq (a b : num) : this a = this b -> Ok a = Ok b.
Proof. intros H. f_equal. apply Qc_is_canon. now rewrite H. Qed.

(** The ticks between two multiples of 100, by their indices. *)
Lemma in_ticks (kf kl : Z) (t : num) :
  In t (map (fun i => int (kf + Z.of_nat i) * int 100)
            (seq 0 (Z.to_nat (kl - kf))))
  <-> exists z, t = int z * int 100 /\ (kf <= z < kl)%Z.
Proof.
  rewrite in_map_iff. split.
  - intros (i & <- & Hi). apply in_seq in Hi.
    exists (kf + Z.of_nat i)%Z. split; [reflexivity|]. lia.
  - intros (z & -> & Hz). exists (Z.to_nat (z - kf)). split.
    + do 2 f_equal. lia.
    + apply in_seq. lia.
Qed.

Lemma ticks_nth (kf : Z) (n i : nat) :
  (i < n)%nat ->
  nth i (map (fun i => int (kf + Z.of_nat i) * int 100) (seq 0 n)) (int 0)
  = int (kf + Z.of_nat i) * int 100.
Proof.
  intros Hi. set (f := fun i => int (kf + Z.of_nat i) * int 100).
  rewrite (nth_indep _ (int 0) (f 0%nat))
    by now rewrite length_map, length_seq.
  rewrite map_nth, seq_nth by assumption. reflexivity.
Qed.

(** The two tick bounds as multiples of 100, and the array between. *)
Lemma tick_bounds (s e : num) :
  exists kf kl : Z,
    first_tick s = int kf * int 100 /\
    final_tick e = int kl * int 100 /\
    int (kl - 1) * int 100 <= e /\ e < int kl * int 100 /\
    np.arange (first_tick s) (final_tick e) (int 100)
    = map (fun i => int (kf + Z.of_nat i) * int 100)
          (seq 0 (Z.to_nat (kl - kf))).
Proof.
  unfold first_tick, final_tick.
  destruct (floordiv_100_spec (s - int 1)) as (k1 & -> & _ & _).
  destruct (floordiv_100_spec e) as (k2 & -> & Hlo & Hhi).
  exists (k1 + 1)%Z, (k2 + 1)%Z. rewrite !int_plus.
  replace (k2 + 1 - 1)%Z with k2 by lia.
  repeat split; try assumption. apply arange_multiples.
Qed.

(** C7, as the code has it.  With derived range [s], [e], the ticks
    are [np.arange(first_tick, final_tick, 100)]: [first_tick] is the
    smallest multiple of 100 strictly greater than [s - 1] and
    [final_tick] the smallest multiple of 100 strictly greater than
    [e], and the array stops before [final_tick].  So the ticks are
    exactly the multiples of 100 in the interval from [s - 1], excluded,
    to [e], included, 100 apart; when there is one, the first is
    [first_tick] and the last is [final_tick - 100], the greatest
    multiple of 100 that is at most [e].  A [plot] that returns a figure
    has set these ticks and the x limits [s], [e].  For the range 100 to
    250 the ticks are 100 and 200. *)
Theorem xticks_spec (self : Timeline) (s e : num)
    (Hs : start self = Ok s) (He : end_ self = Ok e) :
  exists ticks,
    xticks_of self = Ok ticks /\
    ticks = np.arange (first_tick s) (final_tick e) (int 100) /\
    smallest_multiple_above (first_tick s) (s - int 1) /\
    smallest_multiple_above (final_tick e) e /\
    greatest_multiple_upto (final_tick e - int 100) e /\
    (forall t, In t ticks <-> multiple_of_100 t /\ s - int 1 < t /\ t <= e) /\
    (forall i, (S i < List.length ticks)%nat ->
       nth (S i) ticks (int 0) = nth i ticks (int 0) + int 100) /\
    (ticks <> [] ->
       hd_error ticks = Some (first_tick s) /\
       last ticks (int 0) = final_tick e - int 100) /\
    (forall figsize dpi off fences fc fa hide w fig,
       obj w = self ->
       fst (plot figsize dpi off fences fc fa hide w) = Ok fig ->
       xticks (fig_axes fig) = Some ticks /\
       xlim (fig_axes fig) = Some (s, e)) /\
    xticks_of age_and_event = Ok [int 100; int 200].
Proof.
  exists (np.arange (first_tick s) (final_tick e) (int 100)).
  pose proof (next_multiple_spec (s - int 1)) as Hfirst.
  pose proof (next_multiple_spec e) as Hfinal.
  pose proof (prev_multiple_spec e) as Hprev.
  change (next_multiple (s - int 1)) with (first_tick s) in Hfirst.
  change (next_multiple e) with (final_tick e) in Hfinal, Hprev.
  destruct (tick_bounds s e) as (kf & kl & Ef & El & Hlo & Hhi & Ea).
  split; [unfold xticks_of; now rewrite Hs, He|].
  split; [reflexivity|].
  split; [exact Hfirst|]. split; [exact Hfinal|]. split; [exact Hprev|].
  rewrite Ea. split; [|split; [|split; [|split]]].
  - intros t. rewrite in_ticks. split.
    + intros (z & -> & Hz). split; [now exists z|]. split.
      * destruct Hfirst as (_ & Hlt & _). eapply Qclt_le_trans; [exact Hlt|].
        rewrite Ef. apply (proj2 (mult_100_le _ _)), (proj2 (int_le _ _)). lia.
      * eapply Qcle_trans; [|exact Hlo].
        apply (proj2 (mult_100_le _ _)), (proj2 (int_le _ _)). lia.
    + intros ((z & ->) & Hgt & Hle). exists z. split; [reflexivity|]. split.
      * destruct Hfirst as (_ & _ & Hmin).
        specialize (Hmin (int z * int 100) (ex_intro _ z eq_refl) Hgt).
        rewrite Ef in Hmin.
        now apply (proj1 (mult_100_le _ _)), (proj1 (int_le _ _)) in Hmin.
      * assert (Hlt : int z * int 100 < int kl * int 100)
          by (eapply Qcle_lt_trans; eassumption).
        now apply (proj1 (mult_100_lt _ _)), (proj1 (int_lt _ _)) in Hlt.
  - intros i Hi. rewrite length_map, length_seq in Hi.
    rewrite !ticks_nth by lia. rewrite Nat2Z.inj_succ.
    replace (kf + Z.succ (Z.of_nat i))%Z with (kf + Z.of_nat i + 1)%Z by lia.
    rewrite <- (int_plus (kf + Z.of_nat i) 1).
    change (int 1) with (1 : Qc). ring.
  - intros Hne. destruct (Z.to_nat (kl - kf)) as [|n] eqn:En;
      [now contradiction Hne|].
    split.
    + simpl. now rewrite Z.add_0_r, Ef.
    + rewrite seq_S, map_app. cbn [map]. rewrite last_last. simpl.
      rewrite El. replace (kf + Z.of_nat n)%Z with (kl + -1)%Z by lia.
      rewrite <- int_plus.
      replace (int (-1)) with (- (1 : Qc)) by (apply Qc_is_canon; reflexivity).
      ring.
  - intros figsize dpi off fences fc fa hide w fig Hw Hfig.
    apply plot_inv in Hfig as (s' & e' & fs & Hs' & He' & _ & ->).
    rewrite Hw, Hs in Hs'. rewrite Hw, He in He'.
    injection Hs' as <-. injection He' as <-.
    cbn [expected_figure fig_axes xticks xlim]. now rewrite Ea.
  - apply Ok_list_num_eq. reflexivity.
Qed.


Lemma xticks_spec_witness :
  exists ticks,
    xticks_of age_and_event = Ok ticks /\
    forall t, In t ticks <->
              multiple_of_100 t /\ int 100 - int 1 < t /\ t <= int 250.
Proof.
  destruct (xticks_spec age_and_event (int 100) (int 250))
    as (ticks & Hx & _ & _ & _ & _ & Hin & _).
  - apply Ok_num_eq. reflexivity.
  - apply Ok_num_eq. reflexivity.
  - exists ticks. split; [exact Hx | exact Hin].
Defined.


(** C7 as stated fails on the range 100 to 250: the ticks are 100 and
    200.  The first tick is not 200, and the last tick, 200, is not a
    multiple of 100 strictly greater than 250. *)
Lemma xticks_last_not_above_end :
  start age_and_event = Ok (int 100) /\
  end_ age_and_event = Ok (int 250) /\
  xticks_of age_and_event = Ok [int 100; int 200] /\
  hd_error [int 100; int 200] <> Some (int 200) /\
  ~ smallest_multiple_above (last [int 100; int 200] (int 0)) (int 250).
Proof.
  split; [apply Ok_num_eq; reflexivity|].
  split; [apply Ok_num_eq; reflexivity|].
  split; [apply Ok_list_num_eq; reflexivity|].
  split.
  - intros E. apply (f_equal (option_map this)) in E. discriminate E.
  - intros (_ & Hlt & _). simpl in Hlt.
    apply (proj1 (int_lt _ _)) in Hlt. lia.
Qed.

(** ** Rendering twice *)

(** C9.  Calling [plot] twice in a row, with nothing in between, gives
    the same outcome both times (the same figure, or the same
    exception), and neither call changes [self]: the four dicts after
    each call are those before the first.  When a figure is returned,
    its x limits are the derived start and end, its ticks the computed
    tick array and, with fences enabled, its dashed lines the computed
    fences, the same in both runs. *)
Theorem plot_twice figsize dpi off fences fc fa hide (w : World) :
  let run1 := plot figsize dpi off fences fc fa hide w in
  let run2 := plot figsize dpi off fences fc fa hide (snd run1) in
  fst run2 = fst run1 /\
  obj (snd run1) = obj w /\ obj (snd run2) = obj w /\
  forall fig1, fst run1 = Ok fig1 ->
    exists s e ticks fs,
      fst run2 = Ok fig1 /\
      start (obj w) = Ok s /\ end_ (obj w) = Ok e /\
      xticks_of (obj w) = Ok ticks /\ fences_of (obj w) = Ok fs /\
      xlim (fig_axes fig1) = Some (s, e) /\
      xticks (fig_axes fig1) = Some ticks /\
      (fences = true -> fence_lines fig1 = fs).
Proof.
  intros run1 run2.
  assert (H1 : obj (snd run1) = obj w) by apply preserves_plot.
  assert (H2 : obj (snd run2) = obj w)
    by (unfold run2; now rewrite preserves_plot).
  assert (E : run2 = run1).
  { unfold run2. rewrite <- (plot_fresh _ _ _ _ _ _ _ (snd run1) (ax w)).
    rewrite H1. unfold run1. now destruct w. }
  split; [now rewrite E|]. split; [exact H1|]. split; [exact H2|].
  intros fig1 Hfig. apply plot_inv in Hfig as (s & e & fs & Hs & He & Hfs & ->).
  exists s, e, (np.arange (first_tick s) (final_tick e) (int 100)), fs.
  rewrite E. repeat split; try assumption.
  - unfold run1. 
    now rewrite (plot_ok figsize dpi off fences fc fa hide w s e fs Hs He Hfs).
  - unfold xticks_of. now rewrite Hs, He.
  - intros ->. apply fence_lines_expected.
Qed.
